(** * NuvioExpo: stream selection and external-player dispatch

    A shallow embedding of the stream pipeline of
    [src/screens/StreamsScreen.tsx]: the press handler [handleStreamPress]
    with its chain of [Linking.openURL] attempts, and the two memoised
    views [filterItems] and [sections] that order provider groups by the
    installed-addon list.

    JavaScript strings are sequences of UTF-16 code units.  The effects of
    the handler (calls to [Linking.openURL] and [navigation.navigate]) are
    recorded in a trace threaded through a small state monad; the answer of
    the platform to each [openURL] call is given by an oracle that sees the
    trace so far and the url.  [Linking.openURL] is always called here with
    a non-empty string, for which it returns a promise: the call either
    resolves or rejects.  The only operation of the handler that can throw
    is [encodeURIComponent], on a string with an unpaired surrogate. *)

From Stdlib Require Import NArith ZArith Lia String Ascii.
From HB Require Import structures.
From mathcomp Require Import ssreflect ssrfun ssrbool eqtype ssrnat seq path.
From Equations Require Import Equations.

Set Warnings "-notation-overridden,-rewrite-rw,-notation-incompatible-prefix".
Set Implicit Arguments.
Unset Strict Implicit.
Unset Printing Implicit Defensive.

(** ** JavaScript strings *)

Module JS.

(** A string is the sequence of its UTF-16 code units. *)
Definition jsstring := seq N.

(** ASCII literals. *)
Definition js (s : string) : jsstring :=
  [seq N_of_ascii a | a <- list_ascii_of_string s].

(** [s.startsWith(p)] *)
Definition startsWith (s p : jsstring) : bool := prefix p s.

(** [s.includes(c)] for a one-unit search string. *)
Definition includes (s : jsstring) (c : N) : bool := c \in s.

(** [s.split(c)[0]]: the part of [s] before the first [c], all of [s] when
    there is none. *)
Fixpoint split0 (s : jsstring) (c : N) : jsstring :=
  match s with
  | [::] => [::]
  | x :: s' => if x == c then [::] else x :: split0 s' c
  end.

(** *** [encodeURIComponent] (ECMA-262, Encode with the empty extra set) *)

Definition inRange (lo hi c : N) : bool := (lo <=? c)%num && (c <=? hi)%num.

(** uriAlpha, DecimalDigit and uriMark. *)
Definition uriUnescaped (c : N) : bool :=
  [|| inRange 65 90 c, inRange 97 122 c, inRange 48 57 c
    | c \in js "-_.!~*'()"].

Definition isLeadSurrogate (c : N) : bool := inRange 0xD800 0xDBFF c.
Definition isTrailSurrogate (c : N) : bool := inRange 0xDC00 0xDFFF c.

Definition hexDigit (n : N) : N :=
  if (n <? 10)%num then (48 + n)%num else (55 + n)%num.

Definition pctOctet (b : N) : jsstring :=
  [:: 37%num; hexDigit (b / 16)%num; hexDigit (b mod 16)%num].

Definition utf8 (cp : N) : seq N :=
  if (cp <? 0x80)%num then [:: cp]
  else if (cp <? 0x800)%num then
    [:: (0xC0 + cp / 64)%num; (0x80 + cp mod 64)%num]
  else if (cp <? 0x10000)%num then
    [:: (0xE0 + cp / 4096)%num; (0x80 + (cp / 64) mod 64)%num;
        (0x80 + cp mod 64)%num]
  else
    [:: (0xF0 + cp / 262144)%num; (0x80 + (cp / 4096) mod 64)%num;
        (0x80 + (cp / 64) mod 64)%num; (0x80 + cp mod 64)%num].

Definition pctEncode (cp : N) : jsstring := flatten (map pctOctet (utf8 cp)).

Definition surrogatePair (hi lo : N) : N :=
  (0x10000 + (hi - 0xD800) * 1024 + (lo - 0xDC00))%num.

(** [None] stands for the URIError thrown at an unpaired surrogate. *)
Fixpoint encodeURIComponent (s : jsstring) : option jsstring :=
  match s with
  | [::] => Some [::]
  | c :: s' =>
    if uriUnescaped c then omap (cons c) (encodeURIComponent s')
    else if isTrailSurrogate c then None
    else if isLeadSurrogate c then
      match s' with
      | d :: s'' =>
        if isTrailSurrogate d
        then omap (cat (pctEncode (surrogatePair c d))) (encodeURIComponent s'')
        else None
      | [::] => None
      end
    else omap (cat (pctEncode c)) (encodeURIComponent s')
  end.

End JS.
Import JS.

(** ** Data model *)

(** [Platform.OS] *)
Inductive PlatformOS := ios | android | macos | windows | web.

(** The two player fields of the settings object. *)
Record AppSettings := {
  useExternalPlayer : bool;
  preferredPlayer : jsstring
}.

(** A stream entry; [url] is [None] when the property is absent. *)
Record Stream := {
  url : option jsstring;
  name : option jsstring;
  title : option jsstring
}.

(** ** Effects of the press handler *)

Inductive Outcome := Resolved | Rejected.

Inductive Action :=
| OpenURL (target : jsstring)
| NavigateToPlayer (stream : Stream).

Definition Trace := seq Action.

(** The platform: whether the promise of [Linking.openURL(target)] resolves,
    given everything done so far. *)
Definition Linking := Trace -> jsstring -> Outcome.

Definition Eff (A : Type) : Type := Trace -> A * Trace.

Definition ret {A} (a : A) : Eff A := fun t => (a, t).

Definition bind {A B} (m : Eff A) (k : A -> Eff B) : Eff B :=
  fun t => let: (a, t') := m t in k a t'.

Notation "m >>= k" := (bind m k) (at level 58, left associativity).

Definition run (m : Eff unit) : Trace := (m [::]).2.

Definition isOpen (a : Action) : bool :=
  if a is OpenURL _ then true else false.

Definition isOpenOf (u : jsstring) (a : Action) : bool :=
  if a is OpenURL v then v == u else false.

Section Dispatcher.

Variable linking : Linking.

Definition openURL (target : jsstring) : Eff Outcome :=
  fun t => (linking t target, rcons t (OpenURL target)).

Definition navigateToPlayer (stream : Stream) : Eff unit :=
  fun t => (tt, rcons t (NavigateToPlayer stream)).

(** [p.then(log).catch(handler)]: the handler runs only on rejection. *)
Definition orElse (p : Eff Outcome) (handler : Eff unit) : Eff unit :=
  p >>= fun r => if r is Rejected then handler else ret tt.

(** The [switch (settings.preferredPlayer)] of the iOS branch; [None] is the
    [default] case. *)
Definition externalPlayerUrls (player u streamUrl : jsstring)
  : option (seq jsstring) :=
  if player == js "vlc" then
    Some [:: js "vlc://" ++ u;
             js "vlc-x-callback://x-callback-url/stream?url=" ++ streamUrl;
             js "vlc://" ++ streamUrl]
  else if player == js "outplayer" then
    Some [:: js "outplayer://" ++ u;
             js "outplayer://" ++ streamUrl;
             js "outplayer://play?url=" ++ streamUrl;
             js "outplayer://stream?url=" ++ streamUrl;
             js "outplayer://play/browser?url=" ++ streamUrl]
  else if player == js "infuse" then
    Some [:: js "infuse://x-callback-url/play?url=" ++ streamUrl;
             js "infuse://play?url=" ++ streamUrl;
             js "infuse://" ++ streamUrl]
  else if player == js "vidhub" then
    Some [:: js "vidhub://play?url=" ++ streamUrl;
             js "vidhub://" ++ streamUrl]
  else None.

Section TryNextUrl.

Variable stream : Stream.
Variable stream_url : jsstring.
Variable urls : seq jsstring.

Equations? tryNextUrl (index : nat) (t : Trace) : unit * Trace
  by wf (size urls - index) lt :=
tryNextUrl index t with Logic.inspect (size urls <= index) := {
  | exist _ true _ =>
      orElse (openURL stream_url) (navigateToPlayer stream) t
  | exist _ false Hlt =>
      let: (r, t') := openURL (nth [::] urls index) t in
      if r is Rejected then tryNextUrl index.+1 t' else (tt, t') }.
Proof.
  apply/ltP. move/negbT: Hlt. rewrite -ltnNge => Hlt.
  by rewrite subnSK // leqnn.
Qed.

End TryNextUrl.

Definition intentSuffix : jsstring :=
  js "#Intent;action=android.intent.action.VIEW;category=android.intent.category.DEFAULT;component=;type=video/*;launchFlags=0x10000000;end".

Definition cleanUrl (u : jsstring) : jsstring :=
  if includes u 63%num then split0 u 63%num else u.

Definition intentUrl (u : jsstring) : jsstring :=
  js "intent:" ++ cleanUrl u ++ intentSuffix.

Variable OS : PlatformOS.
Variable settings : AppSettings.

(** The body of the iOS [try] block; a throwing [encodeURIComponent] lands
    in its [catch]. *)
Definition dispatchIOS (stream : Stream) (u : jsstring) : Eff unit :=
  match encodeURIComponent u with
  | None => navigateToPlayer stream
  | Some streamUrl =>
    match externalPlayerUrls (preferredPlayer settings) u streamUrl with
    | None => navigateToPlayer stream
    | Some urls => tryNextUrl stream u urls 0
    end
  end.

(** The body of the Android [try] block. *)
Definition dispatchAndroid (stream : Stream) (u : jsstring) : Eff unit :=
  if startsWith u (js "magnet:") then
    orElse (openURL u) (navigateToPlayer stream)
  else
    orElse (openURL (intentUrl u))
      (orElse (openURL u) (navigateToPlayer stream)).

Definition isIOS := if OS is ios then true else false.
Definition isAndroid := if OS is android then true else false.

Definition handleStreamPress (stream : Stream) : Eff unit :=
  match url stream with
  | Some (c :: s) =>
    let u := c :: s in
    if isIOS && (preferredPlayer settings != js "internal") then
      dispatchIOS stream u
    else if isAndroid && useExternalPlayer settings then
      dispatchAndroid stream u
    else navigateToPlayer stream
  | _ => ret tt
  end.

End Dispatcher.

(** ** Provider filter and sections *)

(** An installed addon, as returned by [stremioService.getInstalledAddons]. *)
Record Addon := {
  addon_id : jsstring;
  addon_name : jsstring
}.

(** One value of the grouped-streams object. *)
Record ProviderGroup := {
  addonName : jsstring;
  streams : seq Stream
}.

(** The grouped-streams object, as the list [Object.entries] returns: keys
    in the object's own order, no key twice. *)
Definition GroupedStreams := seq (jsstring * ProviderGroup).

Record StreamSection := {
  section_title : jsstring;
  addonId : jsstring;
  data : seq Stream
}.

Record FilterItem := {
  item_id : jsstring;
  item_name : jsstring
}.

(** [Array.prototype.findIndex]: first position satisfying [p], else [-1]. *)
Fixpoint findIndexFrom {T} (p : pred T) (s : seq T) (i : Z) : Z :=
  if s is x :: s' then
    if p x then i else findIndexFrom p s' (i + 1)%Z
  else (-1)%Z.

Definition findIndex {T} (p : pred T) (s : seq T) : Z := findIndexFrom p s 0%Z.

(** [Array.prototype.find] *)
Fixpoint jsFind {T} (p : pred T) (s : seq T) : option T :=
  if s is x :: s' then if p x then Some x else jsFind p s' else None.

(** [Array.prototype.sort] with a compare function.  The sort is stable;
    for a consistent compare function its result is the stable arrangement
    by [compareFn a b <= 0], here computed by merge sort. *)
Definition jsSort {T} (compareFn : T -> T -> Z) (s : seq T) : seq T :=
  sort (fun a b => (compareFn a b <=? 0)%Z) s.

Section Selector.

Variable installedAddons : seq Addon.

Definition addonIndex (a : jsstring) : Z :=
  findIndex (fun addon => addon_id addon == a) installedAddons.

(** The compare function shared by [filterItems] and [sections]. *)
Definition compareProviders (a b : jsstring) : Z :=
  let indexA := addonIndex a in
  let indexB := addonIndex b in
  if ~~ (indexA =? -1)%Z && ~~ (indexB =? -1)%Z then (indexA - indexB)%Z
  else if ~~ (indexA =? -1)%Z then (-1)%Z
  else if ~~ (indexB =? -1)%Z then 1%Z
  else 0%Z.

Variable grouped : GroupedStreams.

(** [streams[provider]] *)
Definition lookupGroup (provider : jsstring) : option ProviderGroup :=
  omap snd (jsFind (fun e => e.1 == provider) grouped).

Definition displayName (provider : jsstring) : jsstring :=
  match jsFind (fun addon => addon_id addon == provider) installedAddons with
  | Some installedAddon => addon_name installedAddon
  | None =>
    match lookupGroup provider with
    | Some {| addonName := c :: n |} => c :: n
    | _ => provider
    end
  end.

(** [availableProviders] is the array [Array.from] makes of the set. *)
Definition filterItems (availableProviders : seq jsstring) : seq FilterItem :=
  {| item_id := js "all"; item_name := js "All Providers" |}
  :: [seq {| item_id := provider; item_name := displayName provider |}
     | provider <- jsSort compareProviders availableProviders].

Definition toSection (e : jsstring * ProviderGroup) : StreamSection :=
  {| section_title := addonName e.2; addonId := e.1; data := streams e.2 |}.

Definition selects (selectedProvider : jsstring)
    (e : jsstring * ProviderGroup) : bool :=
  if selectedProvider == js "all" then true else e.1 == selectedProvider.

Definition sections (selectedProvider : jsstring) : seq StreamSection :=
  [seq toSection e
  | e <- jsSort (fun ea eb => compareProviders ea.1 eb.1)
           [seq e <- grouped | selects selectedProvider e]].

End Selector.

(** ** Reference semantics of a fallback chain *)

(** [attempts targets]: open each target in turn, stop at the first that
    resolves, navigate to the internal player when all were rejected. *)
Fixpoint attempts (linking : Linking) (stream : Stream)
    (targets : seq jsstring) (t : Trace) : Trace :=
  if targets is a :: rest then
    if linking t a is Rejected
    then attempts linking stream rest (rcons t (OpenURL a))
    else rcons t (OpenURL a)
  else rcons t (NavigateToPlayer stream).

(** The targets [handleStreamPress] hands to the chain: [None] when the
    handler does nothing at all. *)
Definition dispatchTargets (OS : PlatformOS) (settings : AppSettings)
    (stream : Stream) : option (seq jsstring) :=
  match url stream with
  | Some (c :: s) =>
    let u := c :: s in
    if isIOS OS && (preferredPlayer settings != js "internal") then
      match encodeURIComponent u with
      | Some streamUrl =>
        match externalPlayerUrls (preferredPlayer settings) u streamUrl with
        | Some urls => Some (urls ++ [:: u])
        | None => Some [::]
        end
      | None => Some [::]
      end
    else if isAndroid OS && useExternalPlayer settings then
      if startsWith u (js "magnet:") then Some [:: u]
      else Some [:: intentUrl u; u]
    else Some [::]
  | _ => None
  end.

(** A trace is sequential for [linking] when every action that follows an
    [openURL] follows its rejection, and nothing follows a resolved
    [openURL] or the navigation to the internal player. *)
Fixpoint sequentialRun (linking : Linking) (done todo : Trace) : bool :=
  match todo with
  | [::] => true
  | OpenURL a :: rest =>
    (if linking done a is Rejected then ~~ nilp rest else nilp rest)
    && sequentialRun linking (rcons done (OpenURL a)) rest
  | NavigateToPlayer _ :: rest => nilp rest
  end.

(** Every call of [Linking.openURL] is rejected. *)
Definition allRejected (linking : Linking) : Prop :=
  forall t target, linking t target = Rejected.

(** The platform on which nothing opens. *)
Definition rejectAll : Linking := fun _ _ => Rejected.

(** A candidate contains the url, raw or percent-encoded, unchanged. *)
Definition wrapsUrl (u candidate : jsstring) : bool :=
  infix u candidate
  || (if encodeURIComponent u is Some e then infix e candidate else false).

(** An id has an entry in the installed-addon list. *)
Definition installed (installedAddons : seq Addon) (a : jsstring) : bool :=
  ~~ (addonIndex installedAddons a =? -1)%Z.

(** The run ended where the handler may end: on the navigation to the
    internal player, or on an [openURL] that resolved. *)
Definition terminated (linking : Linking) (tr : Trace) : bool :=
  if tr is a0 :: tr' then
    match last a0 tr' with
    | NavigateToPlayer _ => true
    | OpenURL a =>
      if linking (belast a0 tr') a is Resolved then true else false
    end
  else false.

(** Sample data. *)
Definition plainStream (u : jsstring) : Stream :=
  {| url := Some u; name := None; title := None |}.
Definition sampleUrl : jsstring := js "https://example/video.mp4".
Definition sampleStream : Stream := plainStream sampleUrl.
Definition queryUrl : jsstring := js "https://example/video.mp4?token=1".
Definition queryStream : Stream := plainStream queryUrl.
Definition magnetUrl : jsstring := js "magnet:?xt=urn:btih:c12fe1c0".
Definition magnetStream : Stream := plainStream magnetUrl.
Definition noUrlStream : Stream :=
  {| url := None; name := Some (js "Torrentio"); title := None |}.
Definition vlcInternalFlag : AppSettings :=
  {| useExternalPlayer := false; preferredPlayer := js "vlc" |}.
Definition externalFlag : AppSettings :=
  {| useExternalPlayer := true; preferredPlayer := js "internal" |}.

(** Position of an id in the installed-addon list as a natural number:
    the length of the list when the id is absent. *)
Definition addonRank (installedAddons : seq Addon) (a : jsstring) : nat :=
  find (fun addon => addon_id addon == a) installedAddons.

(** [out] lists the ids [src] in installed order: installed ids first, by
    their index in the installed list, then the other ids in the order
    they have in [src]. *)
Definition installedOrder (installedAddons : seq Addon)
    (src out : seq jsstring) : Prop :=
  let present := installed installedAddons in
  [/\ perm_eq out src,
      out = filter present out ++ filter (predC present) out,
      sorted (fun a b => (addonIndex installedAddons a
                          <=? addonIndex installedAddons b)%Z)
        (filter present out)
    & filter (predC present) out = filter (predC present) src].

(** Sample data for the selector. *)
Definition sampleGroup (label : string) : ProviderGroup :=
  {| addonName := js label; streams := [:: plainStream (js label)] |}.
Definition sampleGrouped : GroupedStreams :=
  [:: (js "b", sampleGroup "Bee"); (js "a", sampleGroup "Ay");
      (js "c", sampleGroup "Cee")].
Definition sampleInstalled : seq Addon :=
  [:: {| addon_id := js "a"; addon_name := js "Addon A" |};
      {| addon_id := js "c"; addon_name := js "Addon C" |}].

(** ** Stream card *)

(** The first truthy of [stream.name], [stream.title] and the fixed label. *)
Definition displayTitle (stream : Stream) : jsstring :=
  match name stream with
  | Some (c :: n) => c :: n
  | _ =>
    match title stream with
    | Some (c :: t) => c :: t
    | _ => js "Unnamed Stream"
    end
  end.

(** [stream.title || ''] *)
Definition displayAddonName (stream : Stream) : jsstring :=
  if title stream is Some t then t else [::].

(** The second line of the card is rendered under
    [displayAddonName && displayAddonName !== displayTitle]. *)
Definition showsAddonName (stream : Stream) : bool :=
  ~~ nilp (displayAddonName stream)
  && (displayAddonName stream != displayTitle stream).

Definition isDigit (c : N) : bool := inRange 48 57 c.

Fixpoint takeWhile (p : pred N) (s : jsstring) : jsstring :=
  if s is c :: s' then if p c then c :: takeWhile p s' else [::] else [::].

Fixpoint dropWhile (p : pred N) (s : jsstring) : jsstring :=
  if s is c :: s' then if p c then dropWhile p s' else s else [::].

(** [s.match(/(\d+)p/)?.[1]]: the match starts at the leftmost position
    where a run of digits, taken as long as possible, is followed by "p"
    (giving digits back cannot help: the next unit would be a digit). *)
Fixpoint matchQuality (s : jsstring) : option jsstring :=
  if s is c :: s' then
    let d := takeWhile isDigit s in
    if ~~ nilp d && startsWith (drop (size d) s) (js "p") then Some d
    else matchQuality s'
  else None.

(** [stream.title?.match(/(\d+)p/)?.[1] || null] *)
Definition quality (stream : Stream) : option jsstring :=
  if title stream is Some t then matchQuality t else None.

(** [a < b] on strings: code units compared from the left, a proper prefix
    is smaller. *)
Fixpoint jsLt (a b : jsstring) : bool :=
  match a, b with
  | _, [::] => false
  | [::], _ :: _ => true
  | x :: a', y :: b' => (x <? y)%num || ((x == y) && jsLt a' b')
  end.

(** The HD badge is rendered under [quality && quality >= "720"]. *)
Definition showsHD (stream : Stream) : bool :=
  if quality stream is Some q then ~~ jsLt q (js "720") else false.

(** The class [\s]: WhiteSpace and LineTerminator. *)
Definition isWhiteSpace (c : N) : bool :=
  (c \in [:: 9; 10; 11; 12; 13; 32; 0xA0; 0x1680; 0x2028; 0x2029; 0x202F;
             0x205F; 0x3000; 0xFEFF]%num)
  || inRange 0x2000 0x200A c.

(** The class [[\d.]]. *)
Definition isSizeChar (c : N) : bool := isDigit c || (c == 46%num).

(** The rest of [/<U+1F4BE>\s*([\d.]+\s*[GM]B)/] after the two units of the
    floppy-disk sign.  The classes that follow each other are disjoint, so
    each starred or plussed class takes its longest run. *)
Definition matchSizeAt (rest : jsstring) : option jsstring :=
  let r1 := dropWhile isWhiteSpace rest in
  let num := takeWhile isSizeChar r1 in
  let r2 := drop (size num) r1 in
  let ws := takeWhile isWhiteSpace r2 in
  match drop (size ws) r2 with
  | g :: b :: _ =>
    if [&& ~~ nilp num, (g == 71%num) || (g == 77%num) & b == 66%num]
    then Some (num ++ ws ++ [:: g; b]) else None
  | _ => None
  end.

(** [s.match(/<U+1F4BE>\s*([\d.]+\s*[GM]B)/)?.[1]] *)
Fixpoint matchSize (s : jsstring) : option jsstring :=
  if s is a :: s' then
    if (a == 0xD83D%num) && startsWith s' [:: 0xDCBE%num] then
      if matchSizeAt (behead s') is Some r then Some r else matchSize s'
    else matchSize s'
  else None.

(** [stream.title?.match(...)?.[1]] of the size chip. *)
Definition sizeLabel (stream : Stream) : option jsstring :=
  if title stream is Some t then matchSize t else None.

(** A well-formed string: every code unit fits 16 bits. *)
Definition wellFormed (s : jsstring) : bool :=
  all (fun c => (c <? 0x10000)%num) s.

Definition isSurrogate (c : N) : bool := inRange 0xD800 0xDFFF c.

(** [Object.keys(streams)], the array the provider set is made of. *)
Definition providerKeys (grouped : GroupedStreams) : seq jsstring :=
  map fst grouped.

(** More sample data. *)
Definition surrogateStream : Stream :=
  plainStream (js "https://example/" ++ [:: 0xD83D%num]).
Definition cardStream : Stream :=
  {| url := Some sampleUrl;
     name := Some (js "Torrentio");
     title := Some (js "Movie 1080p WEB " ++ [:: 0xD83D; 0xDCBE]%num
                    ++ js " 2.5 GB") |}.

(** ** Addons screen *)

(** A value of the parsed catalog-settings object. *)
Inductive JsonValue :=
| JBool (b : bool)
| JNumber (z : Z)
| JString (s : jsstring)
| JNull.

(** The fields of an installed manifest the addons screen reads; the
    catalog descriptors themselves are never inspected. *)
Record Manifest (Catalog : Type) := {
  manifest_catalogs : option (seq Catalog);
  manifest_description : option jsstring
}.

(** The [forEach] of [loadAddons] that adds up [addon.catalogs.length]. *)
Definition totalCatalogs {Catalog} (installedAddons : seq (Manifest Catalog))
  : Z :=
  foldl (fun total addon =>
           match manifest_catalogs addon with
           | Some cs =>
             if 0 < size cs then (total + Z.of_nat (size cs))%Z else total
           | None => total
           end) 0%Z installedAddons.

(** [key !== '_lastUpdate' && value === false] *)
Definition isDisabledEntry (entry : jsstring * JsonValue) : bool :=
  (entry.1 != js "_lastUpdate")
  && (if entry.2 is JBool false then true else false).

Definition disabledCount (catalogSettings : seq (jsstring * JsonValue)) : Z :=
  Z.of_nat (size [seq entry <- catalogSettings | isDisabledEntry entry]).

(** The number given to [setCatalogCount]; [stored] is [None] when
    AsyncStorage holds no (or an empty) 'catalog_settings' item, and else
    the entries of the parsed object. *)
Definition catalogCount {Catalog} (installedAddons : seq (Manifest Catalog))
    (stored : option (seq (jsstring * JsonValue))) : Z :=
  let total := totalCatalogs installedAddons in
  if stored is Some catalogSettings
  then (total - disabledCount catalogSettings)%Z else total.


(** Equality on the records, for membership and permutation statements. *)

Definition tuple_of_Stream (s : Stream) := (url s, name s, title s).
Definition Stream_of_tuple t :=
  let: (u, n, ti) := t in {| url := u; name := n; title := ti |}.
Definition tuple_of_StreamK : cancel tuple_of_Stream Stream_of_tuple :=
  fun s => let: Build_Stream _ _ _ := s in erefl.
HB.instance Definition _ := Equality.copy Stream (can_type tuple_of_StreamK).

Definition tuple_of_ProviderGroup (g : ProviderGroup) :=
  (addonName g, streams g).
Definition ProviderGroup_of_tuple t :=
  let: (n, s) := t in {| addonName := n; streams := s |}.
Definition tuple_of_ProviderGroupK :
  cancel tuple_of_ProviderGroup ProviderGroup_of_tuple :=
  fun g => let: Build_ProviderGroup _ _ := g in erefl.
HB.instance Definition _ :=
  Equality.copy ProviderGroup (can_type tuple_of_ProviderGroupK).

Definition tuple_of_StreamSection (s : StreamSection) :=
  (section_title s, addonId s, data s).
Definition StreamSection_of_tuple t :=
  let: (ti, i, d) := t in {| section_title := ti; addonId := i; data := d |}.
Definition tuple_of_StreamSectionK :
  cancel tuple_of_StreamSection StreamSection_of_tuple :=
  fun s => let: Build_StreamSection _ _ _ := s in erefl.
HB.instance Definition _ :=
  Equality.copy StreamSection (can_type tuple_of_StreamSectionK).

Definition sum_of_Action (a : Action) : jsstring + Stream :=
  match a with OpenURL u => inl u | NavigateToPlayer s => inr s end.
Definition Action_of_sum (x : jsstring + Stream) : Action :=
  match x with inl u => OpenURL u | inr s => NavigateToPlayer s end.
Definition sum_of_ActionK : cancel sum_of_Action Action_of_sum :=
  fun a => match a with OpenURL _ => erefl | NavigateToPlayer _ => erefl end.
HB.instance Definition _ := Equality.copy Action (can_type sum_of_ActionK).

(** * Properties *)

(** ** The fallback chain *)

Lemma tryNextUrl_attempts linking stream u urls index t :
  tryNextUrl linking stream u urls index t
  = (tt, attempts linking stream (drop index urls ++ [:: u]) t).
Proof.
  funelim (tryNextUrl linking stream u urls index t).
  - rewrite drop_oversize //= /orElse /bind /openURL /=.
    by case: (linking t u).
  - have Hi : index < size urls by rewrite ltnNge Hlt.
    rewrite (drop_nth [::] Hi) /openURL /=.
    by case: (linking t _) => //; exact: (H Rejected).
Qed.

Lemma handleStreamPress_targets linking OS settings stream :
  run (handleStreamPress linking OS settings stream)
  = if dispatchTargets OS settings stream is Some targets
    then attempts linking stream targets [::] else [::].
Proof.
  rewrite /run /handleStreamPress /dispatchTargets.
  case: (url stream) => [[|c s]|] //.
  case: ifP => _.
  - rewrite /dispatchIOS. case: (encodeURIComponent _) => [e|] //.
    case: (externalPlayerUrls _ _ _) => [urls|] //.
    by rewrite tryNextUrl_attempts drop0.
  - case: ifP => _ //. rewrite /dispatchAndroid.
    case: ifP => _; rewrite /orElse /bind /openURL /=.
    + by case: (linking _ _).
    + by case: (linking _ _) => //; case: (linking _ _).
Qed.

Lemma attempts_cat linking stream targets t :
  exists tr,
    [/\ attempts linking stream targets t = t ++ tr, ~~ nilp tr,
        prefix tr (map OpenURL targets ++ [:: NavigateToPlayer stream])
      & sequentialRun linking t tr].
Proof.
  elim: targets t => [|a rest IH] t /=.
  - exists [:: NavigateToPlayer stream].
    by split=> //=; rewrite ?cats1 ?eqxx.
  - case E: (linking t a).
    + exists [:: OpenURL a].
      by split=> //=; rewrite ?cats1 ?eqxx ?E ?prefix0s.
    + case: (IH (rcons t (OpenURL a))) => tr [-> Hn Hp Hs].
      exists (OpenURL a :: tr).
      by split=> //=; rewrite ?cat_rcons ?eqxx ?E ?Hn.
Qed.

Lemma attempts_allRejected linking stream targets t :
  allRejected linking ->
  attempts linking stream targets t
  = t ++ map OpenURL targets ++ [:: NavigateToPlayer stream].
Proof.
  move=> Hrej. elim: targets t => [|a rest IH] t /=; first by rewrite cats1.
  by rewrite Hrej IH -cats1 -catA.
Qed.

Lemma handleStreamPress_internal linking OS settings stream :
  (if dispatchTargets OS settings stream is Some [::] then true else false) ->
  run (handleStreamPress linking OS settings stream)
  = [:: NavigateToPlayer stream].
Proof.
  rewrite handleStreamPress_targets.
  by case: (dispatchTargets _ _ _) => [[|a l]|].
Qed.

Lemma head_attempts linking stream a rest d :
  head d (attempts linking stream (a :: rest) [::]) = OpenURL a.
Proof.
  rewrite /=; case: (linking _ _) => //.
  by case: (attempts_cat linking stream rest [:: OpenURL a]) => tr [->].
Qed.

Lemma externalPlayerUrls_vlc u e :
  externalPlayerUrls (js "vlc") u e
  = Some [:: js "vlc://" ++ u;
             js "vlc-x-callback://x-callback-url/stream?url=" ++ e;
             js "vlc://" ++ e].
Proof. by rewrite /externalPlayerUrls eqxx. Qed.

Lemma vlc_not_internal : (js "vlc" != js "internal") = true.
Proof. by vm_compute. Qed.

(** ** The press handler *)

(** C9: a stream whose url is absent or empty is ignored: the handler
    opens nothing and does not navigate to the internal player, on every
    platform and for every preference. *)
Theorem C9_no_url_no_action linking OS settings stream :
  url stream = None \/ url stream = Some [::] ->
  run (handleStreamPress linking OS settings stream) = [::].
Proof. by rewrite /run /handleStreamPress; case=> ->. Qed.

Lemma C9_no_url_no_action_witness :
  (url noUrlStream = None \/ url noUrlStream = Some [::])
  /\ run (handleStreamPress rejectAll ios vlcInternalFlag noUrlStream) = [::].
Proof.
  split; first by left.
  by apply: C9_no_url_no_action; left.
Defined.

(** C6: with the internal player selected (iOS: preferredPlayer is
    "internal"; Android: useExternalPlayer is false), or on iOS with a
    player name that has no case in the scheme switch, a stream with a url
    triggers exactly one action, the navigation to the internal player; no
    url is opened, whatever the platform would answer. *)
Theorem C6_internal_single_action linking OS settings stream c s :
  url stream = Some (c :: s) ->
  [\/ OS = ios /\ preferredPlayer settings = js "internal",
      OS = android /\ useExternalPlayer settings = false
    | OS = ios /\
      preferredPlayer settings
        \notin [:: js "vlc"; js "outplayer"; js "infuse"; js "vidhub"]] ->
  run (handleStreamPress linking OS settings stream)
  = [:: NavigateToPlayer stream].
Proof.
  move=> Hu H; apply: handleStreamPress_internal.
  rewrite /dispatchTargets Hu.
  move: (encodeURIComponent (c :: s)) => enc.
  case: H => [[-> ->]|[-> ->]|[-> Hp]] //.
  rewrite [isIOS ios]/=; case: ifP => // _; case: enc => [e|] //.
  rewrite /externalPlayerUrls.
  by move: Hp; rewrite !inE !negb_or => /and4P [] /negbTE-> /negbTE->
    /negbTE-> /negbTE->.
Qed.

Lemma C6_internal_single_action_witness :
  [/\ url sampleStream = Some sampleUrl,
      android = android /\ useExternalPlayer vlcInternalFlag = false
    & run (handleStreamPress rejectAll android vlcInternalFlag sampleStream)
      = [:: NavigateToPlayer sampleStream]].
Proof.
  split; [reflexivity | by split |].
  apply: (@C6_internal_single_action _ _ _ _ 104%num (behead sampleUrl)).
  - reflexivity.
  - by apply: Or32; split.
Defined.

Lemma sequentialRun_terminated linking tr :
  ~~ nilp tr -> sequentialRun linking [::] tr -> terminated linking tr.
Proof.
  case: tr => [|a0 tr] // _.
  rewrite /terminated -[belast a0 tr]/([::] ++ belast a0 tr).
  elim: tr a0 [::] => [|a1 tr IH] a0 done /=.
  - by case: a0 => [a|st] //=; rewrite cats0; case: (linking done a).
  - case: a0 => [a|st] //= /andP [_ Hs].
    by rewrite -cat_rcons; apply: IH.
Qed.

(** C4: on Android with useExternalPlayer set, a url that starts with
    "magnet:" is opened as it is, once; no intent url is built.  When that
    call is rejected the handler navigates to the internal player, and when
    it resolves nothing else happens. *)
Theorem C4_magnet_single_raw_attempt linking settings stream u :
  url stream = Some u -> startsWith u (js "magnet:") ->
  useExternalPlayer settings ->
  run (handleStreamPress linking android settings stream)
  = OpenURL u
    :: (if linking [::] u is Rejected then [:: NavigateToPlayer stream]
        else [::]).
Proof.
  move=> Hu Hm Hext; rewrite handleStreamPress_targets /dispatchTargets Hu.
  case: u Hm {Hu} => [|c s] // Hm.
  by rewrite [isIOS _]/= [isAndroid _]/= Hext Hm /=; case: (linking _ _).
Qed.

Lemma C4_magnet_single_raw_attempt_witness :
  [/\ url magnetStream = Some magnetUrl,
      startsWith magnetUrl (js "magnet:"),
      useExternalPlayer externalFlag
    & run (handleStreamPress rejectAll android externalFlag magnetStream)
      = [:: OpenURL magnetUrl; NavigateToPlayer magnetStream]].
Proof.
  split; [reflexivity | by vm_compute | reflexivity |].
  by apply: (@C4_magnet_single_raw_attempt rejectAll); vm_compute.
Defined.

(** C10: the two halves of the preference are read on different
    platforms.  On iOS the handler does not look at useExternalPlayer: it
    runs the external branch whenever preferredPlayer is not "internal".
    On Android it does not look at preferredPlayer: it runs the external
    branch whenever useExternalPlayer is true.  So with
    {useExternalPlayer: false, preferredPlayer: "vlc"} iOS starts with the
    vlc candidate while Android goes straight to the internal player. *)
Theorem C10_preference_halves linking stream flag player :
  let pref := {| useExternalPlayer := flag; preferredPlayer := player |} in
  [/\ forall flag',
        handleStreamPress linking ios pref stream
        = handleStreamPress linking ios
            {| useExternalPlayer := flag'; preferredPlayer := player |} stream,
      forall player',
        handleStreamPress linking android pref stream
        = handleStreamPress linking android
            {| useExternalPlayer := flag; preferredPlayer := player' |} stream,
      forall c s, url stream = Some (c :: s) -> player != js "internal" ->
        handleStreamPress linking ios pref stream
        = dispatchIOS linking pref stream (c :: s),
      forall c s, url stream = Some (c :: s) -> flag ->
        handleStreamPress linking android pref stream
        = dispatchAndroid linking stream (c :: s)
    & forall c s e, url stream = Some (c :: s) ->
        encodeURIComponent (c :: s) = Some e ->
        head (NavigateToPlayer stream)
          (run (handleStreamPress linking ios vlcInternalFlag stream))
        = OpenURL (js "vlc://" ++ c :: s)
        /\ run (handleStreamPress linking android vlcInternalFlag stream)
           = [:: NavigateToPlayer stream]].
Proof.
  split.
  - by move=> flag'; rewrite /handleStreamPress; case: (url stream).
  - by move=> player'; rewrite /handleStreamPress; case: (url stream).
  - by move=> c s Hu Hp; rewrite /handleStreamPress Hu [isIOS _]/= Hp.
  - by move=> c s Hu Hf; rewrite /handleStreamPress Hu [isIOS _]/= Hf.
  - move=> c s e Hu He; rewrite !handleStreamPress_targets /dispatchTargets Hu.
    rewrite [isIOS _]/= [isAndroid _]/= He [preferredPlayer _]/=.
    rewrite vlc_not_internal externalPlayerUrls_vlc.
    by split; first exact: head_attempts.
Qed.

Lemma C10_preference_halves_witness :
  [/\ url sampleStream = Some sampleUrl,
      head (NavigateToPlayer sampleStream)
        (run (handleStreamPress rejectAll ios vlcInternalFlag sampleStream))
      = OpenURL (js "vlc://" ++ sampleUrl)
    & run (handleStreamPress rejectAll android vlcInternalFlag sampleStream)
      = [:: NavigateToPlayer sampleStream]].
Proof.
  have [_ _ _ _ H] :=
    C10_preference_halves rejectAll sampleStream false (js "vlc").
  have [H1 H2] :=
    H 104%num (behead sampleUrl)
      (js "https%3A%2F%2Fexample%2Fvideo.mp4") erefl erefl.
  by split.
Defined.

Lemma externalPlayerUrls_internal u e :
  externalPlayerUrls (js "internal") u e = None.
Proof. by vm_compute. Qed.

Lemma ios_table_run linking settings stream c s e urls :
  url stream = Some (c :: s) -> encodeURIComponent (c :: s) = Some e ->
  externalPlayerUrls (preferredPlayer settings) (c :: s) e = Some urls ->
  run (handleStreamPress linking ios settings stream)
  = attempts linking stream (urls ++ [:: c :: s]) [::].
Proof.
  move=> Hu He Hx; rewrite handleStreamPress_targets /dispatchTargets Hu.
  rewrite [isIOS _]/= He Hx.
  case: eqP => [Hp|] //.
  by move: Hx; rewrite Hp externalPlayerUrls_internal.
Qed.

Lemma chain_run linking stream targets u :
  let tr := attempts linking stream (targets ++ [:: u]) [::] in
  let full :=
    map OpenURL targets ++ [:: OpenURL u; NavigateToPlayer stream] in
  [/\ prefix tr full, ~~ nilp tr, sequentialRun linking [::] tr
    & allRejected linking -> tr = full].
Proof.
  move=> tr full.
  have Hfull : map OpenURL (targets ++ [:: u]) ++ [:: NavigateToPlayer stream]
               = full.
    by rewrite map_cat -catA.
  case: (attempts_cat linking stream (targets ++ [:: u]) [::])
    => tr' [E Hn Hp Hs].
  have Etr : tr = tr' by rewrite /tr E.
  rewrite Etr -Hfull; split=> // Hrej.
  by rewrite -Etr /tr attempts_allRejected.
Qed.


(** C2: on iOS with preferredPlayer "vlc", for a url U whose encoding
    encodeURIComponent(U) is E, the candidate list is
    ["vlc://" + U, "vlc-x-callback://x-callback-url/stream?url=" + E,
    "vlc://" + E].  The handler opens them in this order, then U itself,
    then navigates to the internal player; each step is taken only after
    the call before it was rejected, and when all are rejected the run is
    the whole sequence. *)
Theorem C2_ios_vlc_order linking flag stream c s e :
  url stream = Some (c :: s) -> encodeURIComponent (c :: s) = Some e ->
  let u := c :: s in
  let candidates :=
    [:: js "vlc://" ++ u;
        js "vlc-x-callback://x-callback-url/stream?url=" ++ e;
        js "vlc://" ++ e] in
  let tr :=
    run (handleStreamPress linking ios
           {| useExternalPlayer := flag; preferredPlayer := js "vlc" |}
           stream) in
  let full :=
    map OpenURL candidates ++ [:: OpenURL u; NavigateToPlayer stream] in
  [/\ externalPlayerUrls (js "vlc") u e = Some candidates,
      prefix tr full, ~~ nilp tr, sequentialRun linking [::] tr
    & allRejected linking -> tr = full].
Proof.
  move=> Hu He u candidates tr full.
  have Hx := externalPlayerUrls_vlc u e.
  have Hrun : tr = attempts linking stream (candidates ++ [:: u]) [::].
    exact: (@ios_table_run linking
              {| useExternalPlayer := flag; preferredPlayer := js "vlc" |}
              stream c s e candidates Hu He Hx).
  by case: (chain_run linking stream candidates u); rewrite -Hrun.
Qed.

Lemma C2_ios_vlc_order_witness :
  [/\ url sampleStream = Some sampleUrl,
      encodeURIComponent sampleUrl
      = Some (js "https%3A%2F%2Fexample%2Fvideo.mp4")
    & run (handleStreamPress rejectAll ios vlcInternalFlag sampleStream)
      = [:: OpenURL (js "vlc://https://example/video.mp4");
            OpenURL (js "vlc-x-callback://x-callback-url/stream?url=https%3A%2F%2Fexample%2Fvideo.mp4");
            OpenURL (js "vlc://https%3A%2F%2Fexample%2Fvideo.mp4");
            OpenURL (js "https://example/video.mp4");
            NavigateToPlayer sampleStream]].
Proof.
  have [_ _ _ _ H] :=
    @C2_ios_vlc_order rejectAll false sampleStream 104%num (behead sampleUrl)
      (js "https%3A%2F%2Fexample%2Fvideo.mp4") erefl erefl.
  split; [reflexivity | reflexivity |].
  by rewrite [LHS]H.
Defined.

(** C3: on iOS, when the player named by the preference has a scheme list
    of N candidates, the handler makes the N candidate attempts in list
    order and then one attempt with the raw url: N+1 calls of
    Linking.openURL when all are rejected, followed by the navigation to
    the internal player.  Each attempt after the first is made only after
    the one before it was rejected, and the run stops at the first attempt
    that resolves. *)
Theorem C3_table_attempts linking settings stream c s e urls :
  url stream = Some (c :: s) -> encodeURIComponent (c :: s) = Some e ->
  externalPlayerUrls (preferredPlayer settings) (c :: s) e = Some urls ->
  let u := c :: s in
  let tr := run (handleStreamPress linking ios settings stream) in
  let full := map OpenURL urls ++ [:: OpenURL u; NavigateToPlayer stream] in
  [/\ prefix tr full, ~~ nilp tr, sequentialRun linking [::] tr,
      terminated linking tr
    & allRejected linking -> tr = full /\ count isOpen tr = (size urls).+1].
Proof.
  move=> Hu He Hx u tr full.
  have Hrun : tr = attempts linking stream (urls ++ [:: u]) [::].
    exact: ios_table_run Hu He Hx.
  case: (chain_run linking stream urls u); rewrite -Hrun => Hp Hn Hs Hall.
  split=> //; first exact: sequentialRun_terminated.
  move=> Hrej; split; first exact: Hall.
  rewrite Hall // count_cat count_map /= addn1.
  by congr _.+1; apply/eqP; rewrite -all_count; apply/allP.
Qed.

Lemma C3_table_attempts_witness :
  [/\ url sampleStream = Some sampleUrl,
      encodeURIComponent sampleUrl
      = Some (js "https%3A%2F%2Fexample%2Fvideo.mp4"),
      omap size
        (externalPlayerUrls (js "outplayer") sampleUrl
           (js "https%3A%2F%2Fexample%2Fvideo.mp4")) = Some 5
    & count isOpen
        (run (handleStreamPress rejectAll ios
                {| useExternalPlayer := true;
                   preferredPlayer := js "outplayer" |} sampleStream)) = 6].
Proof.
  have [_ _ _ _ H] :=
    @C3_table_attempts rejectAll
      {| useExternalPlayer := true; preferredPlayer := js "outplayer" |}
      sampleStream 104%num (behead sampleUrl)
      (js "https%3A%2F%2Fexample%2Fvideo.mp4") _ erefl erefl erefl.
  split; [reflexivity | reflexivity | reflexivity |].
  by have [_ ->] := H (fun _ _ => erefl).
Defined.

(** ** Candidates and the url they carry *)

Lemma size_pctEncode cp : 2 < size (pctEncode cp).
Proof.
  by rewrite /pctEncode /utf8; do 3 (case: ifP => _ //).
Qed.

Lemma size_encodeURIComponent s e :
  encodeURIComponent s = Some e -> size s <= size e.
Proof.
  have [n] := ubnP (size s); elim: n s e => // n IH [|c s] e /=.
    by move=> _ [<-].
  rewrite ltnS => Hn.
  case: ifP => _.
    case E: (encodeURIComponent s) => [e'|] //= [<-] /=.
    by rewrite ltnS; apply: IH E.
  case: ifP => _ //; case: ifP => _.
  - case: s Hn => [|d s] //= Hn; case: ifP => _ //.
    case E: (encodeURIComponent s) => [e'|] //= [<-].
    rewrite size_cat.
    have Hp := size_pctEncode (surrogatePair c d).
    have He : size s <= size e' by apply: IH E; apply: ltnW.
    exact: (@leq_add 2 (size s) _ _ (ltnW Hp) He).
  - case E: (encodeURIComponent s) => [e'|] //= [<-].
    rewrite size_cat.
    have Hp := size_pctEncode c.
    have He : size s <= size e' by apply: IH E.
    exact: (@leq_add 1 (size s) _ _ (ltnW (ltnW Hp)) He).
Qed.

Lemma externalPlayerUrls_longer player u e urls :
  size u <= size e -> externalPlayerUrls player u e = Some urls ->
  all (fun cand => size u < size cand) urls.
Proof.
  move=> Hue; rewrite /externalPlayerUrls.
  do 4 (case: ifP => _; first by
    case=> <-; apply/allP => cand; rewrite !inE;
    do ![case/orP]; move/eqP->; rewrite /= ltnS; do ?apply: leqW).
  by [].
Qed.

Lemma externalPlayerUrls_wraps player u e urls :
  encodeURIComponent u = Some e -> externalPlayerUrls player u e = Some urls ->
  all (wrapsUrl u) urls.
Proof.
  move=> He; rewrite /externalPlayerUrls /wrapsUrl He.
  do 4 (case: ifP => _; first by
    move/Some_inj=> <-; apply/allP => cand; rewrite !inE;
    do ![case/orP]; move/eqP->; rewrite suffix_infix ?orbT).
  by [].
Qed.

Lemma split0_notin s c : c \notin split0 s c.
Proof.
  elim: s => [|x s IH] //=; case: ifP => // Hx.
  by rewrite inE negb_or eq_sym Hx.
Qed.

Lemma intentUrl_neq u : intentUrl u != u.
Proof.
  rewrite /intentUrl /cleanUrl /includes; case: ifP => Hq; apply/eqP => E.
  - have : 63%num \in js "intent:" ++ split0 u 63%num ++ intentSuffix.
      by rewrite E.
    by rewrite !mem_cat (negbTE (split0_notin u _)).
  - move/(congr1 size): E; rewrite !size_cat addnCA => /eqP.
    by rewrite -[X in _ == X]addn0 eqn_add2l.
Qed.

Lemma dispatchTargets_spec OS settings stream c s :
  url stream = Some (c :: s) ->
  let u := c :: s in
  exists targets,
    [/\ dispatchTargets OS settings stream = Some targets,
        targets = [::]
        \/ (exists2 cands, targets = rcons cands u & u \notin cands)
      & all (fun cand =>
               wrapsUrl u cand
               || [&& isAndroid OS, includes u 63%num & cand == intentUrl u])
            targets].
Proof.
  move=> Hu u; rewrite /dispatchTargets Hu -/u.
  have Huu : wrapsUrl u u by rewrite /wrapsUrl infix_refl.
  case: ifP => _.
  - case He: (encodeURIComponent u) => [e|]; last by exists [::]; split; auto.
    case Hx: (externalPlayerUrls _ _ _) => [urls|];
      last by exists [::]; split; auto.
    exists (urls ++ [:: u]); split=> //.
    + right; exists urls; first by rewrite cats1.
      have := externalPlayerUrls_longer (size_encodeURIComponent He) Hx.
      move/allP=> Hall; apply/negP => /Hall.
      by rewrite ltnn.
    + rewrite all_cat /= Huu /= andbT.
      apply: sub_all (externalPlayerUrls_wraps He Hx) => cand ->.
      by [].
  - case: ifP => Ha; last by exists [::]; split; auto.
    case: ifP => _.
    + exists [:: u]; split=> //=; last by rewrite Huu.
      by right; exists [::].
    + exists [:: intentUrl u; u]; split=> //=.
        right; exists [:: intentUrl u] => //.
        by rewrite inE eq_sym intentUrl_neq.
      rewrite Huu /= andbT; move/andP: Ha => [-> _] /=.
      rewrite eqxx andbT; case Hq: (includes u 63%num); first by rewrite orbT.
      by rewrite orbF /wrapsUrl /intentUrl /cleanUrl Hq infix_infix.
Qed.

Lemma handleStreamPress_terminated linking OS settings stream c s :
  url stream = Some (c :: s) ->
  terminated linking (run (handleStreamPress linking OS settings stream)).
Proof.
  move=> Hu; rewrite handleStreamPress_targets.
  have [targets [-> _ _]] := dispatchTargets_spec OS settings Hu.
  have [tr [-> Hn _ Hs]] := attempts_cat linking stream targets [::].
  exact: sequentialRun_terminated.
Qed.

(** C1: for a stream with a url, when every call of Linking.openURL is
    rejected the run of the handler ends with the navigation to the internal
    player.  Either that navigation is the only action, or it comes right
    after an attempt with the raw url, which is the last external attempt
    and is made once: no earlier candidate equals the raw url.  Whatever
    the platform answers, the run ends on a resolved openURL or on the
    navigation to the internal player. *)
Theorem C1_all_rejected_ends_internal linking OS settings stream c s :
  url stream = Some (c :: s) -> allRejected linking ->
  let u := c :: s in
  let tr := run (handleStreamPress linking OS settings stream) in
  [/\ exists targets,
        tr = map OpenURL targets ++ [:: NavigateToPlayer stream]
        /\ (targets = [::]
            \/ exists2 cands, targets = rcons cands u & u \notin cands),
      last (OpenURL u) tr = NavigateToPlayer stream,
      count (isOpenOf u) tr <= 1
    & forall linking',
        terminated linking'
          (run (handleStreamPress linking' OS settings stream))].
Proof.
  move=> Hu Hrej u tr.
  have [targets [Ht Hshape _]] := dispatchTargets_spec OS settings Hu.
  have Etr : tr = map OpenURL targets ++ [:: NavigateToPlayer stream].
    by rewrite /tr handleStreamPress_targets Ht attempts_allRejected.
  split; first by exists targets.
  - by rewrite Etr last_cat.
  - rewrite Etr count_cat /= addn0 count_map.
    case: Hshape => [->|[cands -> Hc]] //.
    rewrite -cats1 count_cat /= eqxx addn0 -[1]/(0 + 1) leq_add2r leqn0.
    by rewrite -[count _ _]/(count_mem u cands) (count_memPn Hc).
  - by move=> linking'; apply: handleStreamPress_terminated Hu.
Qed.

Lemma C1_all_rejected_ends_internal_witness :
  [/\ url queryStream = Some queryUrl, allRejected rejectAll
    & last (OpenURL queryUrl)
        (run (handleStreamPress rejectAll android externalFlag queryStream))
      = NavigateToPlayer queryStream].
Proof.
  split; [reflexivity | by [] |].
  have [_ H _ _] :=
    @C1_all_rejected_ends_internal rejectAll android externalFlag queryStream
      104%num (behead queryUrl) erefl (fun _ _ => erefl).
  exact: H.
Defined.

(** C5, as the spec states it: every candidate the handler opens contains
    the stream url, raw or percent-encoded, unchanged.  It fails on Android
    for a url with a query: the intent candidate is built from the url cut
    at its first question mark. *)
Lemma C5_counterexample :
  let cand :=
    js "intent:https://example/video.mp4#Intent;action=android.intent.action.VIEW;category=android.intent.category.DEFAULT;component=;type=video/*;launchFlags=0x10000000;end" in
  (OpenURL cand
     \in run (handleStreamPress rejectAll android externalFlag queryStream))
  /\ wrapsUrl queryUrl cand = false.
Proof. by split; vm_compute. Qed.

(** C5, amended: every candidate the handler opens contains the stream url,
    raw or percent-encoded, unchanged, except the Android intent candidate
    of a url that has a question mark, which is "intent:" followed by the
    part of the url before its first question mark and the fixed intent
    suffix. *)
Theorem C5_candidates_wrap_url linking OS settings stream c s cand :
  url stream = Some (c :: s) ->
  OpenURL cand \in run (handleStreamPress linking OS settings stream) ->
  let u := c :: s in
  wrapsUrl u cand
  \/ [/\ OS = android, includes u 63%num
       & cand = js "intent:" ++ split0 u 63%num ++ intentSuffix].
Proof.
  move=> Hu Hin u.
  have [targets [Ht _ /allP Hall]] := dispatchTargets_spec OS settings Hu.
  move: Hin; rewrite handleStreamPress_targets Ht.
  have [tr [-> _ Hp _]] := attempts_cat linking stream targets [::].
  rewrite cat0s => Hin.
  have : OpenURL cand \in map OpenURL targets ++ [:: NavigateToPlayer stream].
    by move/prefixP: Hp => [rest ->]; rewrite mem_cat Hin.
  rewrite mem_cat inE orbF => /mapP [x Hx [->]].
  case/orP: (Hall _ Hx) => [->|/and3P [Ha Hq /eqP->]]; first by left.
  right; split=> //; first by case: OS Ha {Ht Hin Hall Hx}.
  by rewrite /intentUrl /cleanUrl Hq.
Qed.

Lemma C5_candidates_wrap_url_witness :
  [/\ url sampleStream = Some sampleUrl,
      OpenURL (js "outplayer://play?url=https%3A%2F%2Fexample%2Fvideo.mp4")
        \in run (handleStreamPress rejectAll ios
                   {| useExternalPlayer := false;
                      preferredPlayer := js "outplayer" |} sampleStream)
    & wrapsUrl sampleUrl
        (js "outplayer://play?url=https%3A%2F%2Fexample%2Fvideo.mp4")].
Proof.
  have Hin :
    OpenURL (js "outplayer://play?url=https%3A%2F%2Fexample%2Fvideo.mp4")
      \in run (handleStreamPress rejectAll ios
                 {| useExternalPlayer := false;
                    preferredPlayer := js "outplayer" |} sampleStream)
    by vm_compute.
  split; [reflexivity | exact: Hin |].
  case: (@C5_candidates_wrap_url rejectAll ios
           {| useExternalPlayer := false; preferredPlayer := js "outplayer" |}
           sampleStream 104%num (behead sampleUrl) _ erefl Hin) => [//|[]].
  by [].
Defined.

(** ** Installed order *)

Section InstalledOrder.

Variable installedAddons : seq Addon.

Let present := installed installedAddons.
Let rank := addonRank installedAddons.
Let leT (a b : jsstring) : bool :=
  (compareProviders installedAddons a b <=? 0)%Z.

Lemma findIndexFrom_find T (q : pred T) (s : seq T) (i : Z) :
  findIndexFrom q s i
  = if has q s then (i + Z.of_nat (find q s))%Z else (-1)%Z.
Proof.
  elim: s i => [|x s IH] i //=.
  case: ifP => _ /=; first by rewrite Z.add_0_r.
  rewrite IH; case: (has q s) => //.
  by rewrite ?Zpos_P_of_succ_nat ?Nat2Z.inj_succ; lia.
Qed.

Lemma addonIndexE a :
  addonIndex installedAddons a
  = if rank a < size installedAddons then Z.of_nat (rank a) else (-1)%Z.
Proof.
  by rewrite /addonIndex /findIndex findIndexFrom_find -has_find.
Qed.

Lemma presentE a : present a = (rank a < size installedAddons).
Proof.
  rewrite /present /installed addonIndexE.
  by case: ifP => // _; case: Z.eqb_spec => //; lia.
Qed.

Lemma leTE a b : leT a b = (rank a <= rank b).
Proof.
  rewrite /leT /compareProviders -!/(installed _ _) -!/(present _).
  rewrite !presentE !addonIndexE.
  have Ha := find_size (fun addon => addon_id addon == a) installedAddons.
  have Hb := find_size (fun addon => addon_id addon == b) installedAddons.
  rewrite -!/(addonRank _ _) -!/(rank _) in Ha Hb.
  case: (ltnP (rank a)) => Hra; case: (ltnP (rank b)) => Hrb /=.
  - apply/idP/idP => [/Z.leb_le H|/leP H]; first by apply/leP; lia.
    by apply/Z.leb_le; lia.
  - by rewrite (leq_trans (ltnW Hra)).
  - by symmetry; apply/negbTE; rewrite -ltnNge (leq_trans Hrb).
  - by rewrite (leq_trans Ha).
Qed.

Lemma leT_total : total leT.
Proof. by move=> a b; rewrite !leTE leq_total. Qed.

Lemma leT_trans : transitive leT.
Proof. by move=> b a c; rewrite !leTE; apply: leq_trans. Qed.

Lemma absent_sorted s : all (predC present) s -> sorted leT s.
Proof.
  move=> Hs; rewrite (sorted_pairwise leT_trans).
  elim: s Hs => [|x s IH] //= /andP [Hx Hs]; rewrite IH // andbT.
  apply/allP => y /(allP Hs) /=; move: Hx; rewrite /= !presentE leTE.
  rewrite -!leqNgt => Hx Hy; apply: leq_trans Hy.
  exact: find_size.
Qed.

Lemma sorted_present_first s :
  sorted leT s -> s = filter present s ++ filter (predC present) s.
Proof.
  elim: s => [|x s IH] //=; rewrite (path_sortedE leT_trans).
  case/andP => Hx Hs; case Px: (present x) => /=; first by rewrite -IH.
  suff Habs : all (predC present) s.
    have /all_filterP-> := Habs.
    have -> // : filter present s = [::].
    by apply/eqP; rewrite -[_ == _]negbK -has_filter -all_predC.
  apply/allP => y /(allP Hx); move: Px; rewrite /= !presentE leTE.
  by move/negbT; rewrite -!leqNgt => H1 H2; apply: leq_trans H2.
Qed.

Lemma jsSort_installedOrder s :
  installedOrder installedAddons s (jsSort (compareProviders installedAddons) s).
Proof.
  rewrite /jsSort -/leT; split.
  - by rewrite perm_sort.
  - by apply: sorted_present_first; apply: (sort_sorted leT_total).
  - have Hs : sorted leT (filter present (sort leT s)).
      by apply: (sorted_filter leT_trans); apply: (sort_sorted leT_total).
    apply: (@sub_in_sorted _ present leT _ _ _ (filter_all _ _) Hs).
    move=> a b; rewrite /in_mem /= !presentE leTE !addonIndexE => -> -> Hab.
    by apply/Z.leb_le; move/leP: Hab; lia.
  - rewrite (filter_sort leT_total leT_trans).
    by apply: (sorted_sort leT_trans); apply: absent_sorted; apply: filter_all.
Qed.

End InstalledOrder.

(** ** Provider filter and sections *)

Lemma sections_ids installedAddons grouped selectedProvider :
  map addonId (sections installedAddons grouped selectedProvider)
  = jsSort (compareProviders installedAddons)
      [seq e.1 | e <- grouped & selects selectedProvider e].
Proof.
  rewrite /sections /jsSort -map_comp sort_map.
  exact: eq_map.
Qed.

(** C8: both the provider filter and the sections list their providers in
    installed order: the ids that have an entry in the installed-addon list
    come first, sorted by their index in that list, and every id without an
    entry comes after all of them, in the order of the aggregated mapping
    (the sort is stable and the compare function returns 0 for two such
    ids). *)
Theorem C8_installed_ordering installedAddons grouped availableProviders
    selectedProvider :
  [/\ installedOrder installedAddons
        [seq e.1 | e <- grouped & selects selectedProvider e]
        (map addonId (sections installedAddons grouped selectedProvider)),
      installedOrder installedAddons availableProviders
        (map item_id
           (behead (filterItems installedAddons grouped availableProviders)))
    & map item_id
        (take 1 (filterItems installedAddons grouped availableProviders))
      = [:: js "all"]].
Proof.
  split.
  - rewrite sections_ids; exact: jsSort_installedOrder.
  - rewrite /filterItems [behead _]/= -map_comp.
    rewrite (@eq_map _ _ _ id) ?map_id //.
    exact: jsSort_installedOrder.
  - by rewrite /filterItems /= take0.
Qed.

(** The scenario of the spec: groups b, a, c with a and c installed are
    listed a, c, b. *)
Example sections_sample_order :
  map addonId (sections sampleInstalled sampleGrouped (js "all"))
  = [:: js "a"; js "c"; js "b"].
Proof. by vm_compute. Qed.

Lemma same_key_sorted installedAddons token (l : GroupedStreams) :
  all (fun e => e.1 == token) l ->
  jsSort (fun ea eb => compareProviders installedAddons ea.1 eb.1) l = l.
Proof.
  move=> Hl; apply: pairwise_sort.
  elim: l Hl => [|e l IH] //= /andP [/eqP He Hl]; rewrite IH // andbT.
  apply/allP => e' /(allP Hl) /eqP He'.
  by rewrite He He' leTE.
Qed.

(** C7: with the token "all" the sections are the provider groups of the
    aggregated mapping, all of them and nothing else, so their stream
    entries together are those of the mapping.  With any other token the
    sections are the groups whose provider id is the token: at most one,
    as ids are not repeated in the mapping, and every entry shown belongs
    to the group of that id. *)
Theorem C7_selector installedAddons (grouped : GroupedStreams) token :
  uniq (map fst grouped) ->
  let every := sections installedAddons grouped (js "all") in
  let one := sections installedAddons grouped token in
  [/\ perm_eq every (map toSection grouped),
      perm_eq (flatten (map data every))
        (flatten [seq streams e.2 | e <- grouped])
    & token != js "all" ->
      [/\ one = [seq toSection e | e <- grouped & e.1 == token],
          size one <= 1,
          all (fun sec => addonId sec == token) one
        & forall st, st \in flatten (map data one) ->
            exists2 g, (token, g) \in grouped & st \in streams g]].
Proof.
  move=> Huniq every one.
  have Hevery : perm_eq every (map toSection grouped).
    have Hsel : selects (js "all") =1 predT by move=> e; rewrite /selects eqxx.
    rewrite /every /sections /jsSort; apply: perm_map.
    by rewrite perm_sort (eq_filter Hsel) filter_predT.
  split=> //.
    have -> : [seq streams e.2 | e <- grouped]
              = map data (map toSection grouped) by rewrite -map_comp.
    by apply: perm_flatten; apply: perm_map.
  move=> Htok.
  have Hone : one = [seq toSection e | e <- grouped & e.1 == token].
    have Hsel : selects token =1 (fun e => e.1 == token).
      by move=> e; rewrite /selects (negbTE Htok).
    rewrite /one /sections (eq_filter Hsel) (@same_key_sorted _ token) //.
    exact: filter_all.
  split=> //.
  - rewrite Hone size_map size_filter.
    have -> : count (fun e => e.1 == token) grouped
              = count_mem token (map fst grouped).
      by rewrite count_map; apply: eq_count => e /=; rewrite eq_sym.
    by rewrite count_uniq_mem // leq_b1.
  - by rewrite Hone all_map; apply/allP => e; rewrite mem_filter => /andP [].
  - move=> st; rewrite Hone -map_comp => /flattenP [ss /mapP [[k g]]].
    rewrite mem_filter /= => /andP [/eqP -> Hin] -> Hst.
    by exists g.
Qed.

Lemma C7_selector_witness :
  [/\ uniq (map fst sampleGrouped),
      perm_eq (sections sampleInstalled sampleGrouped (js "all"))
        (map toSection sampleGrouped)
    & sections sampleInstalled sampleGrouped (js "c")
      = [:: toSection (js "c", sampleGroup "Cee")]].
Proof.
  have [H1 _ H2] :=
    @C7_selector sampleInstalled sampleGrouped (js "c") erefl.
  split; [reflexivity | exact: H1 |].
  by have [-> _ _ _] := H2 erefl.
Defined.

(** * Further properties of the press handler *)

Lemma sequentialRun_split linking done todo t1 a t2 :
  sequentialRun linking done todo -> todo = t1 ++ OpenURL a :: t2 ->
  (linking (done ++ t1) a = Resolved <-> t2 = [::]).
Proof.
  move=> Hs E; move: Hs; rewrite {todo}E.
  elim: t1 done => [|b t1 IH] done.
  - rewrite cats0 /=; case: (linking done a) => /andP [H _].
    + by split=> // _; apply/nilP.
    + by split=> // E; move: H; rewrite E.
  - rewrite /=; case: b => [x|st] /=.
    + by case/andP=> _ /IH; rewrite cat_rcons.
    + by case: t1 {IH}.
Qed.

Lemma handleStreamPress_sequential linking OS settings stream :
  sequentialRun linking [::]
    (run (handleStreamPress linking OS settings stream)).
Proof.
  rewrite handleStreamPress_targets.
  case: (dispatchTargets _ _ _) => [targets|] //.
  by have [tr [-> _ _ Hs]] := attempts_cat linking stream targets [::].
Qed.

(** X1: in every run of the handler, on every platform and for every
    preference, a call of Linking.openURL is the last action exactly when
    it resolved: nothing is done after a success, and a rejection is never
    left without a next step. *)
Theorem X1_open_last_iff_resolved linking OS settings stream t1 a t2 :
  run (handleStreamPress linking OS settings stream)
  = t1 ++ OpenURL a :: t2 ->
  (linking t1 a = Resolved <-> t2 = [::]).
Proof.
  move=> E.
  exact: (sequentialRun_split
            (handleStreamPress_sequential linking OS settings stream) E).
Qed.

Lemma X1_open_last_iff_resolved_witness :
  run (handleStreamPress rejectAll android externalFlag magnetStream)
  = [::] ++ OpenURL magnetUrl :: [:: NavigateToPlayer magnetStream]
  /\ ~ (rejectAll [::] magnetUrl = Resolved).
Proof.
  have E :
    run (handleStreamPress rejectAll android externalFlag magnetStream)
    = [::] ++ OpenURL magnetUrl :: [:: NavigateToPlayer magnetStream]
    by vm_compute.
  split; first exact: E.
  by case: (X1_open_last_iff_resolved E) => H _ /H.
Defined.

Lemma externalPlayerUrls_size player u e urls :
  externalPlayerUrls player u e = Some urls -> 1 < size urls <= 5.
Proof.
  rewrite /externalPlayerUrls.
  by do 4 (case: ifP => _; first by move/Some_inj=> <-).
Qed.

Lemma dispatchTargets_size OS settings stream targets :
  dispatchTargets OS settings stream = Some targets -> size targets <= 6.
Proof.
  rewrite /dispatchTargets; case: (url stream) => [[|c s]|] //.
  case: ifP => _.
  - case: (encodeURIComponent _) => [e|]; last by case=> <-.
    case Hx: (externalPlayerUrls _ _ _) => [urls|]; last by case=> <-.
    move/Some_inj=> <-; rewrite size_cat addn1 ltnS.
    by case/andP: (externalPlayerUrls_size Hx).
  - by case: ifP => _; [case: ifP => _|]; move/Some_inj=> <-.
Qed.

Lemma navigate_split (targets : seq jsstring) stream t1 st t2 :
  map OpenURL targets ++ [:: NavigateToPlayer stream]
  = t1 ++ NavigateToPlayer st :: t2 ->
  [/\ t1 = map OpenURL targets, st = stream & t2 = [::]].
Proof.
  elim: targets t1 => [|x l IH] [|b t1] //=.
  - by case=> <- <-.
  - by case=> _; case: t1.
  - by case=> <- /IH [-> -> ->].
Qed.

(** X2: whatever the platform answers, one press makes at most six calls
    of Linking.openURL and navigates to the internal player at most once;
    when it navigates, that is its last action, it passes the pressed
    stream, and everything before it was an openURL call. *)
Theorem X2_bounded_run linking OS settings stream :
  let tr := run (handleStreamPress linking OS settings stream) in
  count isOpen tr <= 6
  /\ forall t1 st t2, tr = t1 ++ NavigateToPlayer st :: t2 ->
       [/\ st = stream, t2 = [::] & all isOpen t1].
Proof.
  rewrite /= handleStreamPress_targets.
  case Ht: (dispatchTargets _ _ _) => [targets|]; last first.
    by split=> // [[|b t1]].
  have [tr [-> _ /prefixP [rest Hfull] _]] :=
    attempts_cat linking stream targets [::].
  rewrite cat0s; split.
  - apply: leq_trans (dispatchTargets_size Ht).
    have <- : count isOpen (map OpenURL targets
                            ++ [:: NavigateToPlayer stream]) = size targets.
      rewrite count_cat /= !addn0 count_map.
      by apply/eqP; rewrite -all_count; apply/allP.
    by rewrite Hfull count_cat leq_addr.
  - move=> t1 st t2 E; move: Hfull; rewrite E -catA cat_cons.
    case/navigate_split=> -> -> /eqP; rewrite -size_eq0 size_cat addn_eq0.
    rewrite size_eq0 => /andP [/eqP -> _]; split=> //.
    by rewrite all_map; apply/allP.
Qed.

Lemma X2_bounded_run_witness :
  run (handleStreamPress rejectAll android externalFlag magnetStream)
  = [:: OpenURL magnetUrl] ++ NavigateToPlayer magnetStream :: [::]
  /\ all isOpen [:: OpenURL magnetUrl].
Proof.
  have E :
    run (handleStreamPress rejectAll android externalFlag magnetStream)
    = [:: OpenURL magnetUrl] ++ NavigateToPlayer magnetStream :: [::]
    by vm_compute.
  split; first exact: E.
  have [_ H] := X2_bounded_run rejectAll android externalFlag magnetStream.
  by have [_ _] := H _ _ _ E.
Defined.

(** X3: on a platform that is neither iOS nor Android the preference is
    not consulted at all: a stream with a url is played by the internal
    player, and nothing is opened. *)
Theorem X3_other_platforms_internal linking OS settings stream c s :
  url stream = Some (c :: s) ->
  [\/ OS = macos, OS = windows | OS = web] ->
  run (handleStreamPress linking OS settings stream)
  = [:: NavigateToPlayer stream].
Proof.
  move=> Hu HOS; apply: handleStreamPress_internal.
  by rewrite /dispatchTargets Hu; case: HOS => ->.
Qed.

Lemma X3_other_platforms_internal_witness :
  [/\ url sampleStream = Some sampleUrl, web = web
    & run (handleStreamPress rejectAll web externalFlag sampleStream)
      = [:: NavigateToPlayer sampleStream]].
Proof.
  split; [reflexivity | reflexivity |].
  apply: (@X3_other_platforms_internal _ _ _ _ 104%num (behead sampleUrl)).
  - reflexivity.
  - exact: Or33.
Defined.

(** X4: on iOS with an external player selected, a url that
    encodeURIComponent refuses (it has an unpaired surrogate) is handed to
    the internal player at once: the exception is caught before any
    candidate is opened. *)
Theorem X4_unencodable_url_internal linking settings stream c s :
  url stream = Some (c :: s) -> preferredPlayer settings != js "internal" ->
  encodeURIComponent (c :: s) = None ->
  run (handleStreamPress linking ios settings stream)
  = [:: NavigateToPlayer stream].
Proof.
  move=> Hu Hp He; apply: handleStreamPress_internal.
  by rewrite /dispatchTargets Hu [isIOS _]/= Hp He.
Qed.

Lemma X4_unencodable_url_internal_witness :
  [/\ url surrogateStream = Some (js "https://example/" ++ [:: 0xD83D%num]),
      preferredPlayer vlcInternalFlag != js "internal",
      encodeURIComponent (js "https://example/" ++ [:: 0xD83D%num]) = None
    & run (handleStreamPress rejectAll ios vlcInternalFlag surrogateStream)
      = [:: NavigateToPlayer surrogateStream]].
Proof.
  split; [reflexivity | by vm_compute | by vm_compute |].
  apply: (@X4_unencodable_url_internal _ _ _ 104%num
            (behead (js "https://example/" ++ [:: 0xD83D%num]))).
  - reflexivity.
  - by vm_compute.
  - by vm_compute.
Defined.

Lemma surrogate_cases c :
  ~~ isSurrogate c -> isTrailSurrogate c = false /\ isLeadSurrogate c = false.
Proof.
  rewrite /isSurrogate /isTrailSurrogate /isLeadSurrogate /inRange => H.
  split; apply/negbTE; apply: contra H => /andP [/N.leb_le H1 /N.leb_le H2];
    by apply/andP; split; apply/N.leb_le; lia.
Qed.

Lemma encodeURIComponent_defined u :
  ~~ has isSurrogate u -> encodeURIComponent u.
Proof.
  elim: u => [|c u IH] //=; rewrite negb_or => /andP [Hc /IH Hu].
  have [-> ->] := surrogate_cases Hc.
  by case: ifP => _; case: (encodeURIComponent u) Hu.
Qed.

(** X5: on iOS, when the preferred player is one of the four of the scheme
    switch and the url has no surrogate code unit, the first thing the
    handler does is an openURL call: such a press never goes straight to
    the internal player. *)
Theorem X5_ios_external_first linking settings stream c s :
  url stream = Some (c :: s) -> ~~ has isSurrogate (c :: s) ->
  preferredPlayer settings
    \in [:: js "vlc"; js "outplayer"; js "infuse"; js "vidhub"] ->
  isOpen (head (NavigateToPlayer stream)
            (run (handleStreamPress linking ios settings stream))).
Proof.
  move=> Hu /encodeURIComponent_defined.
  case He: (encodeURIComponent _) => [e|] // _ Hp.
  have [urls Hx] : exists urls,
      externalPlayerUrls (preferredPlayer settings) (c :: s) e = Some urls.
    move: Hp; rewrite !inE /externalPlayerUrls.
    by do 4 (case: eqP => _; first by eexists).
  rewrite (ios_table_run linking Hu He Hx).
  case/andP: (externalPlayerUrls_size Hx) => Hs _.
  by case: urls Hs {Hx} => [|x urls] // _; rewrite cat_cons head_attempts.
Qed.

Lemma X5_ios_external_first_witness :
  [/\ url sampleStream = Some sampleUrl, ~~ has isSurrogate sampleUrl,
      js "infuse" \in [:: js "vlc"; js "outplayer"; js "infuse"; js "vidhub"]
    & isOpen (head (NavigateToPlayer sampleStream)
                (run (handleStreamPress rejectAll ios
                        {| useExternalPlayer := false;
                           preferredPlayer := js "infuse" |} sampleStream)))].
Proof.
  split; [reflexivity | by vm_compute | by vm_compute |].
  apply: (@X5_ios_external_first rejectAll
            {| useExternalPlayer := false; preferredPlayer := js "infuse" |}
            sampleStream 104%num (behead sampleUrl)).
  - reflexivity.
  - by vm_compute.
  - by vm_compute.
Defined.




Lemma split0_id s c : c \notin s -> split0 s c = s.
Proof.
  elim: s => [|x s IH] //=; rewrite inE negb_or eq_sym => /andP [/negbTE-> Hs].
  by rewrite IH.
Qed.


(** ** What the candidates are made of *)

Ltac Zify.zify_post_hook ::= Z.to_euclidean_division_equations.

Lemma hexDigit_unescaped n : (n < 16)%num -> uriUnescaped (hexDigit n).
Proof.
  case: n => [|p] H; first by vm_compute.
  do 4 (case: p H => [p|p|] H; try by vm_compute).
  all: lia.
Qed.

Lemma pctOctet_safe b :
  (b < 256)%num -> all (fun c => uriUnescaped c || (c == 37%num)) (pctOctet b).
Proof.
  move=> Hb; apply/allP => c; rewrite /pctOctet !inE => /or3P [] /eqP ->.
  - by rewrite eqxx orbT.
  - by rewrite hexDigit_unescaped //; lia.
  - by rewrite hexDigit_unescaped //; lia.
Qed.

Lemma utf8_bytes cp :
  (cp < 0x110000)%num -> all (fun b => (b <? 256)%num) (utf8 cp).
Proof.
  move=> Hcp; rewrite /utf8.
  do 3 (case: N.ltb_spec => ?; first by
    cbn [all]; rewrite ?andbT; repeat (apply/andP; split); apply/N.ltb_lt; lia).
  by cbn [all]; rewrite ?andbT; repeat (apply/andP; split); apply/N.ltb_lt; lia.
Qed.

Lemma pctEncode_safe cp :
  (cp < 0x110000)%num ->
  all (fun c => uriUnescaped c || (c == 37%num)) (pctEncode cp).
Proof.
  move/utf8_bytes=> /allP Hb; rewrite /pctEncode.
  apply/allP => c /flatten_mapP [b /Hb /N.ltb_lt /pctOctet_safe /allP H].
  exact: H.
Qed.

(** X8: for a well-formed url (16-bit code units) the percent-encoded form
    the iOS candidates carry consists of unreserved characters and "%"
    only; so no "?", "&", "=", "#", "/" or ":" of the stream url reaches
    the query part of a player url. *)
Theorem X8_encoded_url_safe u e :
  wellFormed u -> encodeURIComponent u = Some e ->
  all (fun c => uriUnescaped c || (c == 37%num)) e
  /\ all (fun c => c \notin js "?&=#/:") e.
Proof.
  move=> Hw He.
  have Hsafe : all (fun c => uriUnescaped c || (c == 37%num)) e.
    have [n] := ubnP (size u); elim: n u e Hw He => // n IH [|c u] e /=.
      by move=> _ [<-].
    case/andP=> /N.ltb_lt Hc Hw + Hn; rewrite ltnS in Hn.
    case: ifP => Hun.
      case E: (encodeURIComponent u) => [e'|] //= [<-] /=.
      by rewrite Hun /=; apply: (IH _ _ Hw E Hn).
    case: ifP => _ //; case: ifP => Hlead.
    - case: u Hw Hn => [|d u] //= /andP [/N.ltb_lt Hd Hw] Hn.
      case: ifP => Htrail //.
      case E: (encodeURIComponent u) => [e'|] //= [<-].
      rewrite all_cat (IH _ _ Hw E (ltnW Hn)) andbT.
      apply: pctEncode_safe; move: Hlead Htrail.
      rewrite /isLeadSurrogate /isTrailSurrogate /inRange /surrogatePair.
      move=> /andP [/N.leb_le ? /N.leb_le ?] /andP [/N.leb_le ? /N.leb_le ?].
      lia.
    - case E: (encodeURIComponent u) => [e'|] //= [<-].
      rewrite all_cat (IH _ _ Hw E Hn) andbT.
      by apply: pctEncode_safe; lia.
  split=> //; apply: sub_all Hsafe => x.
  case/orP=> [|/eqP -> //].
  have -> : js "?&=#/:" = [:: 63; 38; 61; 35; 47; 58]%num by [].
  apply: contraTN; rewrite !inE.
  by do ![case/orP]; move/eqP->; vm_compute.
Qed.

Lemma X8_encoded_url_safe_witness :
  [/\ wellFormed queryUrl,
      encodeURIComponent queryUrl
      = Some (js "https%3A%2F%2Fexample%2Fvideo.mp4%3Ftoken%3D1")
    & all (fun c => c \notin js "?&=#/:")
        (js "https%3A%2F%2Fexample%2Fvideo.mp4%3Ftoken%3D1")].
Proof.
  split; [by vm_compute | by vm_compute |].
  have [_ H] :=
    @X8_encoded_url_safe queryUrl
      (js "https%3A%2F%2Fexample%2Fvideo.mp4%3Ftoken%3D1") erefl erefl.
  exact: H.
Defined.

(** X9: every candidate built for a player starts with that player's
    name: on iOS the handler only ever opens url schemes of the player the
    user selected, besides the raw url. *)
Theorem X9_candidates_use_player_scheme player u e urls :
  externalPlayerUrls player u e = Some urls -> all (prefix player) urls.
Proof.
  rewrite /externalPlayerUrls.
  do 4 (case: eqP => [->|_]; first by move/Some_inj=> <-; vm_compute).
  by [].
Qed.

Lemma X9_candidates_use_player_scheme_witness :
  externalPlayerUrls (js "vidhub") sampleUrl (js "x")
  = Some [:: js "vidhub://play?url=x"; js "vidhub://x"]
  /\ all (prefix (js "vidhub")) [:: js "vidhub://play?url=x"; js "vidhub://x"].
Proof.
  split; first by vm_compute.
  by apply: (@X9_candidates_use_player_scheme (js "vidhub") sampleUrl (js "x"));
    vm_compute.
Defined.

(** * Further properties of the provider filter and the sections *)

(** X10: when the provider set is the key set of the aggregated mapping,
    the filter chips after "All Providers" name the providers in the very
    order of the sections shown under "all". *)
Theorem X10_chips_follow_sections installedAddons grouped :
  map item_id
    (behead (filterItems installedAddons grouped (providerKeys grouped)))
  = map addonId (sections installedAddons grouped (js "all")).
Proof.
  have Hsel : selects (js "all") =1 predT by move=> e; rewrite /selects eqxx.
  rewrite sections_ids (eq_filter Hsel) filter_predT.
  rewrite /filterItems [behead _]/= -map_comp.
  by rewrite (@eq_map _ _ _ id) ?map_id.
Qed.

Lemma jsFind_find T (p : pred T) (s : seq T) x0 :
  jsFind p s = if has p s then Some (nth x0 s (find p s)) else None.
Proof. by elim: s => [|x s IH] //=; case: ifP. Qed.

Lemma filter_key_uniq (grouped : GroupedStreams) token :
  uniq (map fst grouped) ->
  [seq e <- grouped | e.1 == token]
  = if lookupGroup grouped token is Some g then [:: (token, g)] else [::].
Proof.
  rewrite /lookupGroup; elim: grouped => [|[k g] l IH] //= /andP [Hk Hu].
  case: eqP => [E|_] /=; last exact: IH.
  rewrite {k}E in Hk *; congr (_ :: _).
  apply/eqP; rewrite -[_ == _]negbK -has_filter; apply/hasPn => e He.
  by apply: contraNneq Hk => <-; apply: map_f.
Qed.

Lemma sections_lookup installedAddons (grouped : GroupedStreams)
    token :
  uniq (map fst grouped) -> token != js "all" ->
  sections installedAddons grouped token
  = if lookupGroup grouped token is Some g
    then [:: {| section_title := addonName g; addonId := token;
                data := streams g |}]
    else [::].
Proof.
  move=> Hu Htok.
  have Hsel : selects token =1 (fun e => e.1 == token).
    by move=> e; rewrite /selects (negbTE Htok).
  have Hsame := @same_key_sorted installedAddons token _
                  (filter_all (fun e => e.1 == token) grouped).
  rewrite /sections (eq_filter Hsel) Hsame filter_key_uniq //.
  by case: (lookupGroup _ _).
Qed.

(** X11: with a token other than "all", selecting by filtering agrees with
    looking the token up in the mapping: the sections are the one section
    of that provider, titled with the group's addon name and holding its
    streams, and there is no section when the mapping has no such key. *)
Theorem X11_sections_lookup installedAddons (grouped : GroupedStreams) token :
  uniq (map fst grouped) -> token != js "all" ->
  sections installedAddons grouped token
  = if lookupGroup grouped token is Some g
    then [:: {| section_title := addonName g; addonId := token;
                data := streams g |}]
    else [::].
Proof. exact: sections_lookup. Qed.

Lemma X11_sections_lookup_witness :
  [/\ uniq (map fst sampleGrouped), js "zz" != js "all",
      sections sampleInstalled sampleGrouped (js "zz") = [::]
    & sections sampleInstalled sampleGrouped (js "b")
      = [:: {| section_title := js "Bee"; addonId := js "b";
               data := [:: plainStream (js "Bee")] |}]].
Proof.
  split; [reflexivity | by vm_compute | |].
  - by rewrite (@X11_sections_lookup sampleInstalled sampleGrouped (js "zz")).
  - by rewrite (@X11_sections_lookup sampleInstalled sampleGrouped (js "b")).
Defined.

Lemma addonRank_inj installedAddons a b :
  installed installedAddons a ->
  addonRank installedAddons a = addonRank installedAddons b -> a = b.
Proof.
  rewrite presentE /addonRank -has_find => Ha E.
  have Hb : has (fun addon => addon_id addon == b) installedAddons.
    by rewrite has_find -E -has_find.
  have /eqP <- := nth_find {| addon_id := a; addon_name := a |} Ha.
  have /eqP <- := nth_find {| addon_id := a; addon_name := a |} Hb.
  by rewrite E.
Qed.

Lemma uniq_keys_inj (grouped : GroupedStreams) e1 e2 :
  uniq (map fst grouped) -> e1 \in grouped -> e2 \in grouped ->
  e1.1 = e2.1 -> e1 = e2.
Proof.
  elim: grouped => [|e l IH] //= /andP [Hk Hu].
  rewrite !inE => /orP [/eqP ->|H1] /orP [/eqP ->|H2] // E.
  - by move: Hk; rewrite E (map_f fst H2).
  - by move: Hk; rewrite -E (map_f fst H1).
  - exact: IH.
Qed.

(** X12: the sections of installed providers do not depend on the order in
    which the providers entered the aggregated mapping: two mappings with
    the same entries show the same installed sections in the same order,
    the order of the installed-addon list. *)
Theorem X12_installed_sections_canonical installedAddons
    (g1 g2 : GroupedStreams) token :
  uniq (map fst g1) -> perm_eq g1 g2 ->
  [seq sec <- sections installedAddons g1 token
  | installed installedAddons (addonId sec)]
  = [seq sec <- sections installedAddons g2 token
    | installed installedAddons (addonId sec)].
Proof.
  move=> Hu Hperm; rewrite /sections /jsSort !filter_map; congr map.
  set le' := fun ea eb : jsstring * ProviderGroup => _.
  set P := preim _ _.
  have Htot : total le' by move=> x y; apply: leT_total.
  have Htr : transitive le' by move=> y x z; apply: leT_trans.
  rewrite !(filter_sort Htot Htr).
  apply/perm_sort_inP; last by do 2 apply: perm_filter.
  - by move=> x y _ _; apply: Htot.
  - by move=> y x z _ _ _; apply: Htr.
  - move=> x y; rewrite !mem_filter => /and3P [Px _ Hx] /and3P [_ _ Hy].
    rewrite /le' !leTE -eqn_leq => /eqP E.
    by apply: (uniq_keys_inj Hu Hx Hy); apply: addonRank_inj E.
Qed.

Lemma X12_installed_sections_canonical_witness :
  [/\ uniq (map fst sampleGrouped), perm_eq sampleGrouped (rev sampleGrouped)
    & [seq sec <- sections sampleInstalled sampleGrouped (js "all")
      | installed sampleInstalled (addonId sec)]
      = [seq sec <- sections sampleInstalled (rev sampleGrouped) (js "all")
        | installed sampleInstalled (addonId sec)]].
Proof.
  have Hp : perm_eq sampleGrouped (rev sampleGrouped).
    by rewrite perm_sym perm_rev.
  split; [reflexivity | exact: Hp |].
  exact: (@X12_installed_sections_canonical sampleInstalled sampleGrouped
            (rev sampleGrouped) (js "all") erefl Hp).
Defined.

(** X13: the label of a provider chip follows a fixed precedence.  For an
    installed provider it is the name of the installed entry that also
    gives the chip its position (the first one with that id); otherwise it
    is the addon name of the provider's group when that is not empty;
    otherwise the provider id. *)
Theorem X13_displayName_precedence installedAddons grouped provider :
  displayName installedAddons grouped provider
  = if installed installedAddons provider then
      addon_name (nth {| addon_id := provider; addon_name := provider |}
                    installedAddons (addonRank installedAddons provider))
    else if lookupGroup grouped provider is Some g then
      if nilp (addonName g) then provider else addonName g
    else provider.
Proof.
  rewrite /displayName presentE /addonRank -has_find.
  rewrite (jsFind_find _ _ {| addon_id := provider; addon_name := provider |}).
  case: (has _ _) => //.
  by case: (lookupGroup _ _) => [[[|c n] st]|].
Qed.

(** * Properties of the stream card *)

(** X14: the first line of a card is never empty, and the second line
    (the stream title) is shown exactly when the stream has both a
    non-empty name and a non-empty title and the two differ. *)
Theorem X14_card_lines stream :
  ~~ nilp (displayTitle stream)
  /\ showsAddonName stream
     = match name stream, title stream with
       | Some (c :: n), Some (d :: t) => c :: n != d :: t
       | _, _ => false
       end.
Proof.
  rewrite /showsAddonName /displayAddonName /displayTitle.
  case: (name stream) => [[|c n]|]; case: (title stream) => [[|d t]|] //=;
    rewrite ?eqxx //.
  by split=> //; rewrite eq_sym.
Qed.

Lemma takeWhile_dropWhile p s : takeWhile p s ++ dropWhile p s = s.
Proof. by elim: s => [|c s IH] //=; case: ifP => //= _; rewrite IH. Qed.

Lemma drop_takeWhile p s : drop (size (takeWhile p s)) s = dropWhile p s.
Proof.
  by rewrite -{2}(takeWhile_dropWhile p s) drop_size_cat.
Qed.

Lemma all_takeWhile p s : all p (takeWhile p s).
Proof. by elim: s => [|c s IH] //=; case: ifP => //= ->. Qed.

Lemma matchQuality_eq s :
  matchQuality s
  = if s is c :: s' then
      if ~~ nilp (takeWhile isDigit s)
         && prefix [:: 112%num] (dropWhile isDigit s)
      then Some (takeWhile isDigit s) else matchQuality s'
    else None.
Proof. by case: s => [|c s'] //; rewrite -drop_takeWhile. Qed.

(** X15: the quality read off a title is a non-empty run of decimal digits
    that stands in the title right before a "p"; and when no quality is
    found, the title has no digit followed by "p" anywhere. *)
Theorem X15_quality_of_title t :
  (forall q, matchQuality t = Some q ->
     [/\ ~~ nilp q, all isDigit q & infix (q ++ js "p") t])
  /\ (matchQuality t = None ->
      forall d, isDigit d -> ~~ infix [:: d; 112%num] t).
Proof.
  split.
  - elim: t => [|c t IH] q; rewrite matchQuality_eq //.
    case: ifP => [/andP [Hn Hp] /Some_inj <-|_ /IH [H1 H2 H3]]; last first.
      by split=> //; rewrite /= H3 orbT.
    split=> //; first exact: all_takeWhile.
    apply: prefixW; rewrite -{2}(takeWhile_dropWhile isDigit (c :: t)).
    case: (dropWhile _ _) Hp => [|x r] //= /andP [/eqP <- _].
    by rewrite -[112%num :: r]cat1s catA prefix_prefix.
  - elim: t => [|c t IH]; rewrite matchQuality_eq //.
    case: ifP => // Hcond /IH Hnone d Hd.
    rewrite [infix _ _]/= (negbTE (Hnone d Hd)) orbF.
    apply: contraFN Hcond; rewrite [prefix _ _]/= => /andP [/eqP E Ht].
    move: Hd; rewrite E => Hc.
    case: t Ht {IH Hnone} => [|x r] //= /andP [/eqP <- _].
    have -> : isDigit 112%num = false by [].
    by rewrite Hc /= ?eqxx ?prefix0s.
Qed.

Lemma X15_quality_of_title_witness :
  matchQuality (js "Movie 1080p WEB") = Some (js "1080")
  /\ infix (js "1080" ++ js "p") (js "Movie 1080p WEB").
Proof.
  have [H _] := X15_quality_of_title (js "Movie 1080p WEB").
  have E : matchQuality (js "Movie 1080p WEB") = Some (js "1080")
    by vm_compute.
  split; first exact: E.
  by have [_ _] := H _ E.
Defined.

(** X16: the HD badge is decided by comparing the quality with "720" as
    strings, from the first character on.  A quality whose first digit is
    below 7 (480, 1080, 2160) gets no badge, one whose first digit is 8 or
    9 gets it, and with a leading 7 the rest is compared with "20". *)
Theorem X16_hd_badge_string_order stream d q :
  quality stream = Some (d :: q) ->
  [/\ (d <? 55)%num -> showsHD stream = false,
      (55 <? d)%num -> showsHD stream = true
    & d = 55%num -> showsHD stream = ~~ jsLt q (js "20")].
Proof.
  move=> Hq; rewrite /showsHD Hq.
  have -> : jsLt (d :: q) (js "720")
            = (d <? 55)%num || ((d == 55%num) && jsLt q (js "20")) by [].
  split=> [->|/N.ltb_lt H|->] //.
  have -> : (d <? 55)%num = false by apply/N.ltb_ge; lia.
  by case: eqP => // E; move: H; rewrite E; lia.
Qed.

Lemma X16_hd_badge_string_order_witness :
  [/\ quality cardStream = Some (js "1080"), (49 <? 55)%num
    & showsHD cardStream = false].
Proof.
  have [H _ _] :=
    @X16_hd_badge_string_order cardStream 49%num (js "080") erefl.
  split; [reflexivity | reflexivity |].
  exact: H.
Defined.

Lemma matchSizeAt_spec rest r :
  matchSizeAt rest = Some r ->
  [/\ infix r rest, suffix (js "GB") r || suffix (js "MB") r
    & isSizeChar (head 0%num r)].
Proof.
  rewrite /matchSizeAt.
  set r1 := dropWhile isWhiteSpace rest.
  set num := takeWhile isSizeChar r1.
  rewrite drop_takeWhile.
  set r2 := dropWhile isSizeChar r1.
  set ws := takeWhile isWhiteSpace r2.
  rewrite drop_takeWhile.
  case E3: (dropWhile isWhiteSpace r2) => [|g [|b tl]] //.
  case: ifP => // /and3P [Hn Hg /eqP Hb] /Some_inj <-.
  have Erest : rest = takeWhile isWhiteSpace rest
                      ++ (num ++ ws ++ [:: g; b]) ++ tl.
    rewrite -!catA /= -E3 /ws takeWhile_dropWhile /r2 /num takeWhile_dropWhile.
    by rewrite /r1 takeWhile_dropWhile.
  split.
  - by rewrite [X in infix _ X]Erest infix_infix.
  - rewrite !catA Hb; case/orP: Hg => /eqP ->; rewrite suffix_suffix //.
    by rewrite orbT.
  - have := all_takeWhile isSizeChar r1; rewrite -/num.
    by case: num Hn {Erest} => [|x n] //= _ /andP [].
Qed.

(** X17: the size chip of a card shows a piece of the title: it starts
    with a digit or a dot and ends with "GB" or "MB". *)
Theorem X17_size_label_of_title t r :
  matchSize t = Some r ->
  [/\ infix r t, suffix (js "GB") r || suffix (js "MB") r
    & isSizeChar (head 0%num r)].
Proof.
  elim: t => [|a t IH] //=.
  have Hstep : matchSize t = Some r ->
      [/\ infix r (a :: t), suffix (js "GB") r || suffix (js "MB") r
        & isSizeChar (head 0%num r)].
    by case/IH=> H1 H2 H3; split=> //; rewrite /= H1 orbT.
  case: ifP => // /andP [_ Hp].
  case E: (matchSizeAt _) => [r'|] //= /Some_inj <-.
  have [H1 H2 H3] := matchSizeAt_spec E; split=> //.
  have Hb : infix (behead t) t by case: (t) => [|y t'] //; apply: infix_cons.
  have Ht : infix (behead t) (a :: t).
    exact: (@infix_trans _ t (behead t) (a :: t) Hb (infix_cons t a)).
  exact: (@infix_trans _ (behead t) r' (a :: t) H1 Ht).
Qed.

Lemma X17_size_label_of_title_witness :
  sizeLabel cardStream = Some (js "2.5 GB")
  /\ suffix (js "GB") (js "2.5 GB") || suffix (js "MB") (js "2.5 GB").
Proof.
  have E : sizeLabel cardStream = Some (js "2.5 GB") by vm_compute.
  split; first exact: E.
  by have [_ H _] := X17_size_label_of_title E.
Defined.

Lemma lookupGroup_mem (grouped : GroupedStreams) k :
  k \in map fst grouped -> lookupGroup grouped k.
Proof.
  rewrite /lookupGroup; elim: grouped => [|[k' g] l IH] //=.
  by rewrite inE eq_sym; case: eqP.
Qed.

(** X18: every provider chip selects exactly one section.  When provider
    ids are not repeated and the provider set is the key set of the
    mapping, pressing a chip whose id is not the word "all" leaves one
    section, the one of that provider.  (A provider whose id is "all"
    cannot be singled out: its chip shows every section.) *)
Theorem X18_chip_selects_one_section installedAddons
    (grouped : GroupedStreams) k :
  uniq (map fst grouped) ->
  k \in map item_id
          (behead (filterItems installedAddons grouped (providerKeys grouped))) ->
  k != js "all" ->
  map addonId (sections installedAddons grouped k) = [:: k].
Proof.
  move=> Hu Hk Hall; rewrite sections_lookup //.
  have : k \in map fst grouped.
    move: Hk; rewrite /filterItems [behead _]/= -map_comp.
    by rewrite (@eq_map _ _ _ id) ?map_id // mem_sort.
  by move/lookupGroup_mem; case: (lookupGroup _ _).
Qed.

Lemma X18_chip_selects_one_section_witness :
  [/\ uniq (map fst sampleGrouped),
      js "c" \in map item_id
                   (behead (filterItems sampleInstalled sampleGrouped
                              (providerKeys sampleGrouped))),
      js "c" != js "all"
    & map addonId (sections sampleInstalled sampleGrouped (js "c"))
      = [:: js "c"]].
Proof.
  split; [reflexivity | by vm_compute | by vm_compute |].
  by apply: X18_chip_selects_one_section; vm_compute.
Defined.

(** * Properties of the addons screen *)

Lemma totalCatalogs_sum Catalog (l : seq (Manifest Catalog)) acc :
  foldl (fun total addon =>
           match manifest_catalogs addon with
           | Some cs =>
             if 0 < size cs then (total + Z.of_nat (size cs))%Z else total
           | None => total
           end) acc l
  = (acc + Z.of_nat
             (sumn [seq size (odflt [::] (manifest_catalogs a)) | a <- l]))%Z.
Proof.
  elim: l acc => [|a l IH] acc; first by rewrite /= Z.add_0_r.
  rewrite /= IH -plusE Nat2Z.inj_add.
  case: (manifest_catalogs a) => [cs|] /=; last by lia.
  case: cs => [|c cs]; first by [].
  have -> : 0 < size (c :: cs) by [].
  by rewrite Z.add_assoc.
Qed.

(** X19: the catalog figure of the overview is the number of catalogs of
    all installed addons minus the number of stored settings entries whose
    value is false, the "_lastUpdate" entry left aside.  It never exceeds
    the number of catalogs, and nothing keeps it from going below zero:
    entries left behind by removed addons are still subtracted. *)
Theorem X19_catalog_count Catalog (l : seq (Manifest Catalog)) st v :
  let total :=
    Z.of_nat (sumn [seq size (odflt [::] (manifest_catalogs a)) | a <- l]) in
  [/\ totalCatalogs l = total, catalogCount l None = total,
      catalogCount l (Some st)
      = (total - Z.of_nat (count isDisabledEntry st))%Z
      /\ (catalogCount l (Some st) <= total)%Z,
      catalogCount l (Some ((js "_lastUpdate", v) :: st))
      = catalogCount l (Some st)
    & catalogCount (@nil (Manifest Catalog)) (Some st)
      = (- Z.of_nat (count isDisabledEntry st))%Z].
Proof.
  have Ht : totalCatalogs l
            = Z.of_nat (sumn [seq size (odflt [::] (manifest_catalogs a))
                             | a <- l]).
    by rewrite /totalCatalogs totalCatalogs_sum.
  rewrite /catalogCount /disabledCount !size_filter Ht /=; split=> //.
  by split=> //; lia.
Qed.

